(** * The quiz game reducer of [src/state.ts]

    A shallow embedding of the state/action model and of the reducer, and
    the properties of the transition table proved about it.

    Conventions of the embedding.
    - A JavaScript slot that may hold [undefined] is an [option]: [None] is
      [undefined].  This is the case of [currentAnswer] (declared optional)
      and of every value bound by destructuring the head of an array, which
      is [undefined] when the array is empty.
    - A call that can raise returns a [Completion]: [Normal v] or
      [Throw e].  The only exception the reducer can raise is the
      [TypeError] of reading a property of [undefined].
    - An effect is a [Lazy (Promise (list Action))]: a thunk over a finite
      tree of the calls the asynchronous body makes to its collaborators
      (animation, delay, question generation), ending in the resolved
      value.  Nothing runs until [run] interprets the tree. *)

From Stdlib Require Import ZArith.
From stdpp Require Import base decidable option list.

Local Open Scope Z_scope.
Local Open Scope nat_scope.

(** ** What [state.ts] imports from ["./questions"]

    The module is not part of the sources at hand; the reducer uses its
    three types, the [correctOption] property of a question and
    [makeQuestions].  [===] on answers is decidable equality. *)
Class Questions := {
  Answer : Type;
  Answer_eq_dec :: EqDecision Answer;
  Question : Type;
  QuestionItem : Type;
  correctOption : Question -> Answer;
  makeQuestions : nat -> list QuestionItem -> list Question;
}.

(** ** Completions *)

Inductive JsError : Type := TypeError.

Inductive Completion (A : Type) : Type :=
| Normal (a : A)
| Throw (e : JsError).
Arguments Normal {A} a.
Arguments Throw {A} e.

Definition bindC {A B : Type} (c : Completion A) (k : A -> Completion B)
  : Completion B :=
  match c with
  | Normal a => k a
  | Throw e => Throw e
  end.

Notation "'try!' x ':=' c 'in' k" := (bindC c (fun x => k))
  (at level 10, x name, c at level 100, k at level 200).

(** [const [first, ...rest] = xs]: destructuring never raises; the head of
    an empty array is [undefined] and its rest is empty. *)
Definition destructure {A : Type} (xs : list A) : option A * list A :=
  (head xs, tail xs).

(** [() => T] *)
Definition Lazy (A : Type) : Type := unit -> A.

Section Model.
Context `{Q : Questions}.

(** *** State *)

Record AnsweredQuestion : Type := {
  question : option Question;
  answer : Answer;
}.

(** The tagged union [GameInProgressState | GameEndState]; the
    constructor is the [tag], its arguments are the fields, in the order
    of the interface declarations. *)
Inductive GameState : Type :=
| in_progress (answeredQuestions : list AnsweredQuestion)
              (currentQuestion : option Question)
              (currentAnswer : option Answer)
              (nextQuestions : list Question)
| ended (answeredQuestions : list AnsweredQuestion).

Record State : Type := {
  questionItems : list QuestionItem;
  gameState : GameState;
}.

(** *** Actions *)

Inductive Action : Type :=
| tag_answer (a : Answer)
| tag_next_question
| tag_start_game
| tag_new_game (questions : list Question).

Definition answerAction (a : Answer) : Action := tag_answer a.
Definition nextQuestionAction : Lazy Action := fun _ => tag_next_question.
Definition startGameAction : Lazy Action := fun _ => tag_start_game.
Definition newGameAction (questions : list Question) : Action :=
  tag_new_game questions.

(** *** Effects *)

(** The body of an [async] function, as the sequence of its calls to the
    collaborators. *)
Inductive Promise (A : Type) : Type :=
| resolve (a : A)
| confetti (k : Promise A)
| delay (ms : Z) (k : Promise A)
| generate (n : nat) (data : list QuestionItem)
           (k : list Question -> Promise A).
Arguments resolve {A} a.
Arguments confetti {A} k.
Arguments delay {A} ms k.
Arguments generate {A} n data k.

Definition Effect : Type := Lazy (Promise (list Action)).

Definition numQuestions : nat := 6.

Definition nextQuestion (isAnswerCorrect : bool) : Effect :=
  fun _ =>
    (if isAnswerCorrect then confetti else id)
      (delay 1500%Z (resolve [nextQuestionAction ()])).

Definition newGame (data : list QuestionItem) : Effect :=
  fun _ =>
    generate numQuestions data
      (fun questions => resolve [newGameAction questions]).

(** What the collaborators observe when an effect runs. *)
Inductive Event : Type :=
| EvConfetti
| EvDelay (ms : Z)
| EvMakeQuestions (n : nat) (data : list QuestionItem).

Fixpoint run {A : Type} (p : Promise A) : list Event * A :=
  match p with
  | resolve a => ([], a)
  | confetti k => let '(t, a) := run k in (EvConfetti :: t, a)
  | delay ms k => let '(t, a) := run k in (EvDelay ms :: t, a)
  | generate n data k =>
      let '(t, a) := run (k (makeQuestions n data)) in
      (EvMakeQuestions n data :: t, a)
  end.

Definition trace (e : Effect) : list Event := (run (e ())).1.
Definition dispatched (e : Effect) : list Action := (run (e ())).2.

(** *** The reducer *)

Record Transition : Type := {
  state : State;
  effects : list Effect;
}.

(** Modelled from the spec: [noEffects] of ["./hooks/useAsyncReducer"],
    which is not among the sources; a no-op row of the transition table
    is "state unchanged, no effects", so the helper pairs the state it
    is given with the empty effect list. *)
Definition noEffects (s : State) : Transition :=
  {| state := s; effects := [] |}.

(** [{ ...state, gameState }] *)
Definition with_gameState (s : State) (g : GameState) : State :=
  {| questionItems := questionItems s; gameState := g |}.

(** [q.correctOption], where [q] may be [undefined]. *)
Definition get_correctOption (q : option Question) : Completion Answer :=
  match q with
  | Some q => Normal (correctOption q)
  | None => Throw TypeError
  end.

Definition initState (items : list QuestionItem) : State :=
  let '(firstQuestion, restQuestions) :=
    destructure (makeQuestions numQuestions items) in
  let gs := in_progress [] firstQuestion None restQuestions in
  {| questionItems := items; gameState := gs |}.

(** The four tags are the whole [Action] type, so the final
    [return { state, effects: [] }] of the source has no case here. *)
Definition reducer (s : State) (action : Action) : Completion Transition :=
  match action with
  | tag_start_game =>
      Normal {| state := s; effects := [newGame (questionItems s)] |}
  | tag_new_game questions =>
      let '(firstQuestion, restQuestions) := destructure questions in
      let gs := in_progress [] firstQuestion None restQuestions in
      Normal (noEffects (with_gameState s gs))
  | tag_answer a =>
      match gameState s with
      | ended _ => Normal (noEffects s)
      | in_progress _ _ (Some _) _ => Normal (noEffects s)
      | in_progress answered current None next =>
          let newState :=
            with_gameState s (in_progress answered current (Some a) next) in
          try! correct := get_correctOption current in
          Normal {| state := newState;
                    effects := [nextQuestion (bool_decide (a = correct))] |}
      end
  | tag_next_question =>
      match gameState s with
      | ended _ => Normal (noEffects s)
      | in_progress _ _ None _ => Normal (noEffects s)
      | in_progress answered current (Some given) next =>
          let answeredQuestion := {| question := current; answer := given |} in
          let answeredQuestions := answeredQuestion :: answered in
          if length next <=? 0 then
            Normal (noEffects (with_gameState s (ended answeredQuestions)))
          else
            let '(head, tail) := destructure next in
            let newGameState := in_progress answeredQuestions head None tail in
            Normal (noEffects (with_gameState s newGameState))
      end
  end.

(** *** Quantities and relations the properties speak of *)

(** answered + (1 if in progress else 0) + remaining queue *)
Definition sessionSize (s : State) : nat :=
  match gameState s with
  | in_progress answered _ _ next => length answered + 1 + length next
  | ended answered => length answered + 0 + 0
  end.

Definition starts_session (action : Action) : bool :=
  match action with
  | tag_new_game _ => true
  | _ => false
  end.

(** The states of the session that began in [s0]: those reached from it
    by transitions other than [new_game]. *)
Inductive session (s0 : State) : State -> Prop :=
| session_here : session s0 s0
| session_step s action r :
    session s0 s ->
    starts_session action = false ->
    reducer s action = Normal r ->
    session s0 (state r).

(** An action is admitted by [P] when the question list it carries, if
    any, satisfies [P]. *)
Definition admitted (P : list Question -> Prop) (action : Action) : Prop :=
  match action with
  | tag_new_game questions => P questions
  | _ => True
  end.

(** The states reached from an initial state by reducer transitions, the
    question lists entering the game all satisfying [P]. *)
Inductive reachable (P : list Question -> Prop) : State -> Prop :=
| reachable_init items :
    P (makeQuestions numQuestions items) ->
    reachable P (initState items)
| reachable_step s action r :
    reachable P s ->
    admitted P action ->
    reducer s action = Normal r ->
    reachable P (state r).

Definition any_questions : list Question -> Prop := fun _ => True.

Definition distinct_questions : list Question -> Prop :=
  fun questions => questions ≠ [] ∧ NoDup questions.

(** In [in_progress], the current question is defined and differs from
    every queued one. *)
Definition current_distinct (s : State) : Prop :=
  match gameState s with
  | in_progress _ current _ next => ∃ q, current = Some q ∧ q ∉ next
  | ended _ => True
  end.

(** The invariant that makes [current_distinct] inductive: the current
    question together with the queue has no repetition. *)
Definition queue_distinct (s : State) : Prop :=
  match gameState s with
  | in_progress _ current _ next => ∃ q, current = Some q ∧ NoDup (q :: next)
  | ended _ => True
  end.

End Model.

Arguments resolve {Q A} a.
Arguments confetti {Q A} k.
Arguments delay {Q A} ms k.
Arguments generate {Q A} n data k.

(** *** The properties, as the transition table words them *)

Section Statements.
Context `{Q : Questions}.

(** What accepting the answer [a] in the state [s], whose game is
    [in_progress answered current None next], comes to: a state with the
    pool of [s] and the game of [s] with [currentAnswer] set to [a], and
    one effect, which fires the animation exactly when [a] is the current
    question's correct option and then dispatches [next_question] alone. *)
Definition answer_accepted (s : State) (a : Answer)
    (answered : list AnsweredQuestion) (current : option Question)
    (next : list Question) : Prop :=
  ∃ e : Effect,
    reducer s (tag_answer a) =
      Normal {| state :=
                  {| questionItems := questionItems s;
                     gameState := in_progress answered current (Some a) next |};
                effects := [e] |}
    ∧ (EvConfetti ∈ trace e ↔ Some a = correctOption <$> current)
    ∧ dispatched e = [tag_next_question].

(** The game state after [next_question] completes the current question:
    the finished pair goes in front of the answered list, and the queue
    gives the next question or, when it is empty, the game ends. *)
Definition advance (answered : list AnsweredQuestion)
    (current : option Question) (given : Answer) (next : list Question)
    : GameState :=
  let answeredQuestions :=
    {| question := current; answer := given |} :: answered in
  match next with
  | head :: tail => in_progress answeredQuestions (Some head) None tail
  | [] => ended answeredQuestions
  end.

(** The session that a resolved [start_game] effect opens from [s]. *)
Definition restarted (s s' : State) : Prop :=
  ∃ r e action r',
    reducer s (startGameAction ()) = Normal r
    ∧ e ∈ effects r
    ∧ action ∈ dispatched e
    ∧ reducer (state r) action = Normal r'
    ∧ s' = state r'.

End Statements.

(** *** Sequences of actions

    The reducer is the sole entry point: whoever drives it applies the
    actions one at a time, in dispatch order, each to the state the
    previous one returned.  What follows composes [reducer] in that way;
    the effects a transition returns are not run here, the actions they
    resolve to are part of the sequence. *)

Section Sequences.
Context `{Q : Questions}.

Fixpoint dispatchAll (s : State) (actions : list Action) : Completion State :=
  match actions with
  | [] => Normal s
  | action :: rest =>
      try! r := reducer s action in dispatchAll (state r) rest
  end.

(** One round per answer: the [answer] action, then the [next_question]
    its effect resolves to. *)
Fixpoint rounds (answers : list Answer) : list Action :=
  match answers with
  | [] => []
  | a :: rest => answerAction a :: nextQuestionAction () :: rounds rest
  end.

(** The pairs [{ question, answer }] of a list of questions and the
    answers given to them, in the order of the questions. *)
Definition answeredPairs (questions : list Question) (answers : list Answer)
  : list AnsweredQuestion :=
  zip_with (fun q a => {| question := Some q; answer := a |}) questions answers.

(** [gameState.answeredQuestions], a field of both variants. *)
Definition answeredOf (g : GameState) : list AnsweredQuestion :=
  match g with
  | in_progress answered _ _ _ => answered
  | ended answered => answered
  end.

(** The queue of a game; an ended game has none. *)
Definition queueOf (g : GameState) : list Question :=
  match g with
  | in_progress _ _ _ next => next
  | ended _ => []
  end.

Definition nonempty_questions : list Question -> Prop :=
  fun questions => questions ≠ [].

(** In [in_progress], the current question is not [undefined]. *)
Definition current_defined (s : State) : Prop :=
  match gameState s with
  | in_progress _ current _ _ => is_Some current
  | ended _ => True
  end.

End Sequences.

(** ** A concrete question module

    Questions are pairs of an identifier and the correct option, answers
    are numbers, and the pool holds ready-made questions. *)
Module Demo.

(** Modelled from the spec: [makeQuestions] of ["./questions"], which is
    not among the sources; the generator "always returns [count]
    questions, or fewer only if the pool is exhausted", and in Scenario A
    a pool [q1..q10] gives [q1] first and [q2..q6] after it: the first
    [count] items of the pool, in order. *)
Definition firstQuestions (count : nat) (pool : list (nat * nat))
  : list (nat * nat) := take count pool.

Definition questions : Questions := {|
  Answer := nat;
  Question := nat * nat;
  QuestionItem := nat * nat;
  correctOption := snd;
  makeQuestions := firstQuestions;
|}.

Definition card (ident correct : nat) : @Question questions :=
  (ident, correct).

Definition two : @Answer questions := 2.
Definition zero : @Answer questions := 0.

Definition pool : list (@QuestionItem questions) :=
  [(1, 2); (2, 0); (3, 3); (4, 1); (5, 0); (6, 2); (7, 1); (8, 3)].

Definition started : @State questions := initState pool.

Definition emptied : @State questions :=
  {| questionItems := pool; gameState := in_progress [] None None [] |}.

Definition answered1 : @State questions :=
  {| questionItems := pool;
     gameState :=
       in_progress [] (Some (card 1 2)) (Some two)
         [card 2 0; card 3 3] |}.

Definition finished : @State questions :=
  {| questionItems := pool;
     gameState :=
       ended [{| question := Some (card 1 2);
                 answer := two |}] |}.

Definition firstAnswered : @State questions :=
  {| questionItems := pool;
     gameState :=
       in_progress [] (Some (card 1 2)) (Some two)
         [card 2 0; card 3 3; card 4 1; card 5 0; card 6 2] |}.

Definition second : @State questions :=
  {| questionItems := pool;
     gameState :=
       in_progress [{| question := Some (card 1 2); answer := two |}]
         (Some (card 2 0)) None [card 3 3; card 4 1; card 5 0; card 6 2] |}.

Definition noItems : list (@QuestionItem questions) := [].

Definition lastAnswered : @State questions :=
  {| questionItems := pool;
     gameState :=
       in_progress [{| question := Some (card 1 2); answer := two |}]
         (Some (card 2 0)) (Some zero) [] |}.

End Demo.

(** ** Properties of the reducer *)

Section Properties.
Context `{Q : Questions}.

Implicit Types (s : State) (a given : Answer) (q : Question).
Implicit Types (answered : list AnsweredQuestion) (next : list Question).
Implicit Types (current : option Question) (action : Action).

(** *** The effects *)

Lemma nextQuestion_trace (isAnswerCorrect : bool) :
  trace (nextQuestion isAnswerCorrect) =
    (if isAnswerCorrect then [EvConfetti] else []) ++ [EvDelay 1500%Z].
Proof. by destruct isAnswerCorrect. Qed.

Lemma nextQuestion_dispatched (isAnswerCorrect : bool) :
  dispatched (nextQuestion isAnswerCorrect) = [nextQuestionAction ()].
Proof. by destruct isAnswerCorrect. Qed.

Lemma nextQuestion_confetti (isAnswerCorrect : bool) :
  EvConfetti ∈ trace (nextQuestion isAnswerCorrect) ↔ isAnswerCorrect = true.
Proof.
  rewrite nextQuestion_trace. destruct isAnswerCorrect; simpl.
  - split; [done | intros _; apply list_elem_of_here].
  - split; [| done]. intros H. apply list_elem_of_singleton in H. discriminate.
Qed.

Lemma newGame_trace (data : list QuestionItem) :
  trace (newGame data) = [EvMakeQuestions numQuestions data].
Proof. reflexivity. Qed.

Lemma newGame_dispatched (data : list QuestionItem) :
  dispatched (newGame data) = [newGameAction (makeQuestions numQuestions data)].
Proof. reflexivity. Qed.

(** *** Destructuring *)

Lemma destructure_cons {A : Type} (x : A) (xs : list A) :
  destructure (x :: xs) = (Some x, xs).
Proof. reflexivity. Qed.

Lemma destructure_nil {A : Type} : destructure (@nil A) = (None, []).
Proof. reflexivity. Qed.

Lemma reducer_new_game s (questions : list Question) :
  reducer s (newGameAction questions) =
    Normal (noEffects (with_gameState s
              (in_progress [] (head questions) None (tail questions)))).
Proof. reflexivity. Qed.

Lemma initState_gameState (items : list QuestionItem) :
  gameState (initState items) =
    in_progress [] (head (makeQuestions numQuestions items)) None
      (tail (makeQuestions numQuestions items)).
Proof. reflexivity. Qed.

Lemma with_gameState_same s : with_gameState s (gameState s) = s.
Proof. by destruct s. Qed.

(** *** When the reducer raises *)

(** The single raising path: an answer for a game in progress whose
    current question is [undefined]. *)
Lemma reducer_throws s action e :
  reducer s action = Throw e ↔
    e = TypeError ∧ ∃ a answered next,
      action = tag_answer a ∧ gameState s = in_progress answered None None next.
Proof.
  split.
  - destruct action as [a| | |questions]; simpl.
    + destruct (gameState s) as [answered [q|] [given|] next|answered];
        simpl; try discriminate.
      intros [= <-]. split; [done |]. by exists a, answered, next.
    + destruct (gameState s) as [answered current [given|] next|answered];
        try discriminate.
      destruct (length next <=? 0); discriminate.
    + discriminate.
    + discriminate.
  - intros (-> & a & answered & next & -> & Hg). simpl. by rewrite Hg.
Qed.

(** *** The session size *)

Lemma sessionSize_step s action r :
  starts_session action = false →
  reducer s action = Normal r →
  sessionSize (state r) = sessionSize s.
Proof.
  intros Hact Hred. destruct action as [a| | |questions]; simpl in *.
  - destruct (gameState s) as [answered [q|] [given|] next|answered] eqn:Hg;
      simpl in Hred; try discriminate; injection Hred as <-; simpl;
      try done; unfold sessionSize; simpl; by rewrite Hg.
  - destruct (gameState s) as [answered current [given|] next|answered] eqn:Hg.
    + destruct next as [|head tail]; simpl in Hred; injection Hred as <-;
        unfold sessionSize; simpl; rewrite Hg; simpl; lia.
    + by injection Hred as <-.
    + by injection Hred as <-.
  - by injection Hred as <-.
  - discriminate.
Qed.

Lemma sessionSize_session s0 s : session s0 s → sessionSize s = sessionSize s0.
Proof.
  induction 1 as [|s action r _ IH Hact Hred]; [done |].
  rewrite <- IH. by eapply sessionSize_step.
Qed.

Lemma sessionSize_fresh s (questions : list Question) :
  questions ≠ [] →
  sessionSize (with_gameState s
                 (in_progress [] (head questions) None (tail questions)))
    = length questions.
Proof. destruct questions; [done |]. intros _. unfold sessionSize. simpl. lia. Qed.

(** *** The current question and the queue *)

Lemma queue_distinct_fresh (items : list QuestionItem)
    (questions : list Question) :
  distinct_questions questions →
  queue_distinct {| questionItems := items;
                    gameState := in_progress [] (head questions) None
                                   (tail questions) |}.
Proof.
  intros [Hne Hnd]. destruct questions as [|q rest]; [done |].
  by exists q.
Qed.

Lemma queue_distinct_step s action r :
  admitted distinct_questions action →
  reducer s action = Normal r →
  queue_distinct s → queue_distinct (state r).
Proof.
  intros Hadm Hred Hinv. destruct action as [a| | |questions]; simpl in *.
  - unfold queue_distinct in *.
    destruct (gameState s) as [answered [q|] [given|] next|answered] eqn:Hg;
      simpl in Hred; try discriminate; injection Hred as <-; simpl;
      rewrite ?Hg; done.
  - unfold queue_distinct in *.
    destruct (gameState s) as [answered current [given|] next|answered] eqn:Hg.
    + destruct Hinv as (q & _ & Hnd). apply NoDup_cons in Hnd as [_ Hnd].
      destruct next as [|head tail]; simpl in Hred; injection Hred as <-;
        simpl; [done |]. by exists head.
    + injection Hred as <-. simpl. by rewrite Hg.
    + injection Hred as <-. simpl. by rewrite Hg.
  - by injection Hred as <-.
  - injection Hred as <-. by apply queue_distinct_fresh.
Qed.

Lemma queue_distinct_reachable s :
  reachable distinct_questions s → queue_distinct s.
Proof.
  induction 1 as [items HP|s action r _ IH Hadm Hred].
  - by apply queue_distinct_fresh.
  - by eapply queue_distinct_step.
Qed.

Lemma queue_distinct_current s : queue_distinct s → current_distinct s.
Proof.
  unfold queue_distinct, current_distinct.
  destruct (gameState s) as [answered current given next|]; [| done].
  intros (q & -> & Hnd). exists q. split; [done |].
  by apply NoDup_cons in Hnd as [? _].
Qed.

(** *** The transition table *)

(** C1, as amended: in a state whose game is in progress with a defined
    current question and no answer yet, an [answer] action returns the
    same state with [currentAnswer] set to the submitted answer and
    exactly one effect; the effect fires the animation if and only if the
    answer equals the current question's [correctOption], and resolves to
    the single action [next_question]. *)
Theorem answer_unanswered s a answered q next :
  gameState s = in_progress answered (Some q) None next →
  answer_accepted s a answered (Some q) next.
Proof.
  intros Hg. exists (nextQuestion (bool_decide (a = correctOption q))).
  split; [| split].
  - simpl. by rewrite Hg.
  - rewrite nextQuestion_confetti, bool_decide_eq_true. simpl.
    split; [by intros -> | by intros [= ->]].
  - apply nextQuestion_dispatched.
Qed.

(** C2: in a state whose game is in progress with an answer recorded, a
    [next_question] action puts the pair of the current question and its
    answer in front of [answeredQuestions]; with a non-empty queue the
    head of the queue becomes the current question, the answer is cleared
    and the queue becomes its tail; with an empty queue the game becomes
    [ended] with that list.  No effect is returned in either case. *)
Theorem next_question_answered s answered current given next :
  gameState s = in_progress answered current (Some given) next →
  reducer s tag_next_question =
    Normal {| state :=
                {| questionItems := questionItems s;
                   gameState :=
                     match next with
                     | head :: tail =>
                         in_progress
                           ({| question := current; answer := given |} :: answered)
                           (Some head) None tail
                     | [] =>
                         ended
                           ({| question := current; answer := given |} :: answered)
                     end |};
              effects := [] |}.
Proof. intros Hg. simpl. rewrite Hg. by destruct next. Qed.

(** C3: in any state a [start_game] action returns the state unchanged
    and exactly one effect; the effect asks the generator for
    [numQuestions] = 6 questions from the state's pool, in one call, and
    resolves to the single action [new_game] carrying the generated list,
    whichever list the generator returns. *)
Theorem start_game_any s :
  ∃ e : Effect,
    reducer s tag_start_game = Normal {| state := s; effects := [e] |}
    ∧ trace e = [EvMakeQuestions 6 (questionItems s)]
    ∧ dispatched e = [tag_new_game (makeQuestions 6 (questionItems s))]
    ∧ ∃ k : list Question → Promise (list Action),
        e () = generate 6 (questionItems s) k
        ∧ ∀ generated : list Question,
            k generated = resolve [tag_new_game generated].
Proof.
  exists (newGame (questionItems s)). do 3 (split; [reflexivity |]).
  by exists (fun generated => resolve [newGameAction generated]).
Qed.

(** C4: in any state a [new_game] action with a non-empty question list
    replaces the game by a fresh [in_progress] one: nothing answered, the
    first supplied question current, no answer, the remaining questions
    queued; the pool is kept and no effect is returned. *)
Theorem new_game_nonempty s (questions : list Question) :
  questions ≠ [] →
  ∃ first rest,
    questions = first :: rest
    ∧ reducer s (tag_new_game questions) =
        Normal {| state :=
                    {| questionItems := questionItems s;
                       gameState := in_progress [] (Some first) None rest |};
                  effects := [] |}.
Proof. destruct questions as [|q rest]; [done |]. by exists q, rest. Qed.

(** C5, as amended: when every question list that enters the game (the
    one [initState] generates and the one each [new_game] action carries)
    is non-empty and free of repetitions, every reachable state whose
    game is in progress has a defined current question that differs from
    every queued question. *)
Theorem reachable_current_distinct s :
  reachable distinct_questions s → current_distinct s.
Proof. intros H. by apply queue_distinct_current, queue_distinct_reachable. Qed.

(** C6: answered + (1 if in progress else 0) + queued is unchanged by
    every transition other than [new_game], hence constant over a
    session; and when the generator returns the 6 questions it is asked
    for, it is 6 in the state [initState] builds and in the state a
    resolved [start_game] effect opens. *)
Theorem sessionSize_invariant :
  (∀ s action r,
      starts_session action = false →
      reducer s action = Normal r →
      sessionSize (state r) = sessionSize s)
  ∧ (∀ s0 s, session s0 s → sessionSize s = sessionSize s0)
  ∧ (∀ items : list QuestionItem,
      length (makeQuestions numQuestions items) = numQuestions →
      sessionSize (initState items) = 6)
  ∧ (∀ s s',
      length (makeQuestions numQuestions (questionItems s)) = numQuestions →
      restarted s s' →
      sessionSize s' = 6).
Proof.
  split; [exact sessionSize_step |].
  split; [exact sessionSize_session |].
  split.
  - intros items Hlen. unfold initState. simpl.
    destruct (makeQuestions numQuestions items) as [|q rest] eqn:Hq;
      [discriminate |].
    unfold sessionSize, numQuestions in *. simpl in *. lia.
  - intros s s' Hlen (r & e & action & r' & Hr & He & Ha & Hr' & ->).
    injection Hr as <-. simpl in He.
    apply list_elem_of_singleton in He as ->.
    rewrite newGame_dispatched in Ha.
    apply list_elem_of_singleton in Ha as ->.
    rewrite reducer_new_game in Hr'. injection Hr' as <-. simpl.
    rewrite sessionSize_fresh; [done |].
    intros Hnil. rewrite Hnil in Hlen. discriminate.
Qed.

(** C7: in a state whose game has ended, an [answer] action and a
    [next_question] action each return the state unchanged and no
    effect. *)
Theorem ended_noop s answered a :
  gameState s = ended answered →
  reducer s (answerAction a) = Normal {| state := s; effects := [] |}
  ∧ reducer s (nextQuestionAction ()) = Normal {| state := s; effects := [] |}.
Proof. intros Hg. simpl. by rewrite Hg. Qed.

(** C8: in a state whose game is in progress with an answer recorded, an
    [answer] action returns the state unchanged and no effect; so the
    recorded answer stays the one first accepted, whatever answer is
    submitted afterwards. *)
Theorem answer_again_noop s answered current given next a :
  gameState s = in_progress answered current (Some given) next →
  reducer s (answerAction a) = Normal {| state := s; effects := [] |}
  ∧ (∀ r, reducer s (answerAction a) = Normal r →
          gameState (state r) = in_progress answered current (Some given) next).
Proof.
  intros Hg. assert (reducer s (answerAction a) = Normal (noEffects s)) as Hr.
  { simpl. by rewrite Hg. }
  split; [done |]. intros r Hr'. rewrite Hr in Hr'. by injection Hr' as <-.
Qed.

(** C9: in a state whose game is in progress with no answer recorded, a
    [next_question] action returns the state unchanged and no effect; the
    current question and the queue stay as they are. *)
Theorem next_question_unanswered_noop s answered current next :
  gameState s = in_progress answered current None next →
  reducer s (nextQuestionAction ()) = Normal {| state := s; effects := [] |}.
Proof. intros Hg. simpl. by rewrite Hg. Qed.

(** C10: in any state a [new_game] action with an empty question list is
    neither rejected nor ignored: the game becomes [in_progress] with
    nothing answered, an [undefined] current question, no answer and an
    empty queue, and no effect is returned. *)
Theorem new_game_empty s :
  reducer s (tag_new_game []) =
    Normal {| state :=
                {| questionItems := questionItems s;
                   gameState := in_progress [] None None [] |};
              effects := [] |}.
Proof. reflexivity. Qed.

End Properties.

(** ** The properties on the concrete question module *)

Section Instances.
Import Demo.
Local Existing Instance questions.

(** Scenario A: a pool of eight cards gives six questions, the first one
    current. *)
Example started_gameState :
  gameState started =
    in_progress [] (Some (card 1 2)) None
      [card 2 0; card 3 3; card 4 1; card 5 0; card 6 2].
Proof. reflexivity. Qed.

(** C1, witness: the right answer to the first question. *)
Lemma answer_unanswered_witness :
  gameState started =
    in_progress [] (Some (card 1 2)) None
      [card 2 0; card 3 3; card 4 1; card 5 0; card 6 2]
  ∧ answer_accepted started two [] (Some (card 1 2))
      [card 2 0; card 3 3; card 4 1; card 5 0; card 6 2].
Proof.
  split; [reflexivity |].
  apply (answer_unanswered started two [] (card 1 2)). reflexivity.
Defined.

(** C1, counterexample: [new_game] with no question leaves the current
    question [undefined]; the game is in progress and unanswered, and an
    [answer] action raises instead of returning a state. *)
Lemma answer_undefined_current_throws :
  reducer started (newGameAction []) = Normal (noEffects emptied)
  ∧ gameState emptied = in_progress [] None None []
  ∧ reducer emptied (answerAction two) = Throw TypeError
  ∧ ¬ answer_accepted emptied two [] None [].
Proof.
  split; [reflexivity |]. split; [reflexivity |]. split; [reflexivity |].
  intros (e & Hr & _). discriminate Hr.
Qed.

(** C2, witness: advancing after the first answer, and ending a game
    whose queue is empty. *)
Lemma next_question_answered_witness :
  (gameState answered1 =
     in_progress [] (Some (card 1 2)) (Some two) [card 2 0; card 3 3]
   ∧ reducer answered1 tag_next_question =
       Normal {| state :=
                   {| questionItems := pool;
                      gameState :=
                        in_progress
                          [{| question := Some (card 1 2); answer := two |}]
                          (Some (card 2 0)) None [card 3 3] |};
                 effects := [] |})
  ∧ (gameState lastAnswered =
       in_progress [{| question := Some (card 1 2); answer := two |}]
         (Some (card 2 0)) (Some zero) []
     ∧ reducer lastAnswered tag_next_question =
         Normal {| state :=
                     {| questionItems := pool;
                        gameState :=
                          ended
                            [{| question := Some (card 2 0); answer := zero |};
                             {| question := Some (card 1 2); answer := two |}] |};
                   effects := [] |}).
Proof.
  split; (split; [reflexivity |]).
  - apply (next_question_answered answered1 [] (Some (card 1 2)) two
             [card 2 0; card 3 3]).
    reflexivity.
  - apply (next_question_answered lastAnswered
             [{| question := Some (card 1 2); answer := two |}]
             (Some (card 2 0)) zero []).
    reflexivity.
Defined.

(** C4, witness. *)
Lemma new_game_nonempty_witness :
  [card 7 1; card 8 3] ≠ []
  ∧ ∃ first rest,
      [card 7 1; card 8 3] = first :: rest
      ∧ reducer finished (tag_new_game [card 7 1; card 8 3]) =
          Normal {| state :=
                      {| questionItems := pool;
                         gameState := in_progress [] (Some first) None rest |};
                    effects := [] |}.
Proof.
  split; [discriminate |].
  apply (new_game_nonempty finished [card 7 1; card 8 3]). discriminate.
Defined.

Lemma pool_distinct : distinct_questions (makeQuestions numQuestions pool).
Proof.
  split; [discriminate |].
  apply (bool_decide_unpack (NoDup (makeQuestions numQuestions pool))).
  vm_compute. exact I.
Defined.

(** C5, witness: the initial state of the pool. *)
Lemma reachable_current_distinct_witness :
  reachable distinct_questions started ∧ current_distinct started.
Proof.
  assert (reachable distinct_questions started) as Hreach.
  { apply (reachable_init distinct_questions pool). exact pool_distinct. }
  split; [exact Hreach |].
  apply (reachable_current_distinct started). exact Hreach.
Defined.

(** C5, counterexample: [new_game] with no question is a reducer
    transition, and the state it reaches is in progress with an
    [undefined] current question. *)
Lemma reachable_undefined_current :
  reachable any_questions emptied
  ∧ gameState emptied = in_progress [] None None []
  ∧ ¬ current_distinct emptied
  ∧ ¬ (∀ s : State, reachable any_questions s → current_distinct s).
Proof.
  assert (reachable any_questions emptied) as Hreach.
  { apply (reachable_step any_questions started (newGameAction [])
             (noEffects emptied));
      [apply (reachable_init any_questions pool) | |]; done. }
  assert (¬ current_distinct emptied) as Hnot.
  { intros (q & Hq & _). discriminate Hq. }
  split; [exact Hreach |]. split; [reflexivity |]. split; [exact Hnot |].
  intros Hall. exact (Hnot (Hall emptied Hreach)).
Qed.

(** A [new_game] action may also repeat a question: the current question
    is then one of the queued ones. *)
Example repeated_question_queued :
  ∀ r, reducer started (newGameAction [card 1 2; card 1 2]) = Normal r →
       ¬ current_distinct (state r).
Proof.
  intros r [= <-] (q & [= <-] & Hq). apply Hq, list_elem_of_here.
Qed.

(** C6, witness: answering the first question keeps the size, which is 6
    from the start. *)
Lemma sessionSize_invariant_witness :
  (∀ r, reducer started (answerAction two) = Normal r →
        sessionSize (state r) = sessionSize started)
  ∧ length (makeQuestions numQuestions pool) = numQuestions
  ∧ sessionSize (initState pool) = 6.
Proof.
  destruct sessionSize_invariant as (Hstep & _ & Hinit & _).
  split; [| split].
  - intros r Hr.
    apply (Hstep started (answerAction two) r); [reflexivity | exact Hr].
  - reflexivity.
  - apply (Hinit pool). reflexivity.
Defined.

(** C7, witness. *)
Lemma ended_noop_witness :
  gameState finished = ended [{| question := Some (card 1 2); answer := two |}]
  ∧ reducer finished (answerAction zero)
      = Normal {| state := finished; effects := [] |}
  ∧ reducer finished (nextQuestionAction ())
      = Normal {| state := finished; effects := [] |}.
Proof.
  split; [reflexivity |].
  apply (ended_noop finished
           [{| question := Some (card 1 2); answer := two |}] zero).
  reflexivity.
Defined.

(** C8, witness: a second, different answer changes nothing. *)
Lemma answer_again_noop_witness :
  gameState answered1 =
    in_progress [] (Some (card 1 2)) (Some two) [card 2 0; card 3 3]
  ∧ reducer answered1 (answerAction zero)
      = Normal {| state := answered1; effects := [] |}.
Proof.
  split; [reflexivity |].
  apply (answer_again_noop answered1 [] (Some (card 1 2)) two
           [card 2 0; card 3 3] zero).
  reflexivity.
Defined.

(** C9, witness. *)
Lemma next_question_unanswered_noop_witness :
  gameState started =
    in_progress [] (Some (card 1 2)) None
      [card 2 0; card 3 3; card 4 1; card 5 0; card 6 2]
  ∧ reducer started (nextQuestionAction ())
      = Normal {| state := started; effects := [] |}.
Proof.
  split; [reflexivity |].
  apply (next_question_unanswered_noop started [] (Some (card 1 2))
           [card 2 0; card 3 3; card 4 1; card 5 0; card 6 2]).
  reflexivity.
Defined.

End Instances.


(** ** Further properties: raising, sequences of actions, sessions *)

Section Sessions.
Context `{Q : Questions}.

Implicit Types (s : State) (a given : Answer) (q : Question).
Implicit Types (answered : list AnsweredQuestion) (next : list Question).
Implicit Types (current : option Question) (action : Action).

(** *** Helpers *)

Lemma raises_only_undefined s action e :
  reducer s action = Throw e →
  ∃ a answered next,
    action = tag_answer a ∧ gameState s = in_progress answered None None next.
Proof.
  destruct action as [a| | |questions]; simpl.
  - destruct (gameState s) as [answered [q|] [given|] next|answered];
      simpl; try discriminate.
    intros _. by exists a, answered, next.
  - destruct (gameState s) as [answered current [given|] next|answered];
      try discriminate.
    destruct (length next <=? 0); discriminate.
  - discriminate.
  - discriminate.
Qed.

Lemma step_questionItems s action r :
  reducer s action = Normal r → questionItems (state r) = questionItems s.
Proof.
  destruct action as [a| | |questions]; simpl.
  - destruct (gameState s) as [answered [q|] [given|] next|answered];
      simpl; try discriminate; by intros [= <-].
  - destruct (gameState s) as [answered current [given|] next|answered];
      [destruct (length next <=? 0) | |]; by intros [= <-].
  - by intros [= <-].
  - by intros [= <-].
Qed.

Lemma dispatchAll_cons s action rest r :
  reducer s action = Normal r →
  dispatchAll s (action :: rest) = dispatchAll (state r) rest.
Proof. intros Hr. simpl. by rewrite Hr. Qed.

Lemma step_answer s answered q next a :
  gameState s = in_progress answered (Some q) None next →
  reducer s (answerAction a) =
    Normal {| state := with_gameState s
                         (in_progress answered (Some q) (Some a) next);
              effects := [nextQuestion (bool_decide (a = correctOption q))] |}.
Proof. intros Hg. simpl. by rewrite Hg. Qed.

Lemma step_next_question s answered current given next :
  gameState s = in_progress answered current (Some given) next →
  reducer s (nextQuestionAction ()) =
    Normal (noEffects (with_gameState s (advance answered current given next))).
Proof. intros Hg. simpl. rewrite Hg. by destruct next. Qed.

Lemma dispatchAll_rounds next : ∀ s answered q a (answers : list Answer),
  gameState s = in_progress answered (Some q) None next →
  length answers = length next →
  dispatchAll s (rounds (a :: answers)) =
    Normal (with_gameState s
              (ended (reverse (answeredPairs (q :: next) (a :: answers))
                        ++ answered))).
Proof.
  induction next as [|q' next IH]; intros s answered q a answers Hg Hlen.
  - destruct answers; [| discriminate]. simpl rounds.
    rewrite (dispatchAll_cons _ _ _ _ (step_answer s answered q [] a Hg)).
    simpl state.
    by rewrite (dispatchAll_cons _ _ _ _
                  (step_next_question
                     (with_gameState s (in_progress answered (Some q) (Some a) []))
                     answered (Some q) a [] eq_refl)).
  - destruct answers as [|a' answers]; [discriminate |].
    injection Hlen as Hlen.
    change (rounds (a :: a' :: answers))
      with (answerAction a :: nextQuestionAction () :: rounds (a' :: answers)).
    rewrite (dispatchAll_cons _ _ _ _ (step_answer s answered q (q' :: next) a Hg)).
    simpl state.
    rewrite (dispatchAll_cons _ _ _ _
               (step_next_question
                  (with_gameState s
                     (in_progress answered (Some q) (Some a) (q' :: next)))
                  answered (Some q) a (q' :: next) eq_refl)).
    simpl state.
    erewrite IH; [| reflexivity | exact Hlen].
    f_equal. unfold with_gameState. simpl. f_equal. f_equal.
    change (answeredPairs (q :: q' :: next) (a :: a' :: answers))
      with ({| question := Some q; answer := a |}
              :: answeredPairs (q' :: next) (a' :: answers)).
    rewrite (reverse_cons (answeredPairs (q' :: next) (a' :: answers))).
    by rewrite <- app_assoc.
Qed.

Lemma current_defined_step s action r :
  admitted nonempty_questions action →
  reducer s action = Normal r →
  current_defined s → current_defined (state r).
Proof.
  intros Hadm Hred Hinv. unfold current_defined in *.
  destruct action as [a| | |questions]; simpl in *.
  - destruct (gameState s) as [answered [q|] [given|] next|answered] eqn:Hg;
      simpl in Hred; try discriminate; injection Hred as <-; simpl;
      rewrite ?Hg; done.
  - destruct (gameState s) as [answered current [given|] next|answered] eqn:Hg.
    + destruct next as [|head tail]; simpl in Hred; injection Hred as <-;
        simpl; done.
    + injection Hred as <-. simpl. by rewrite Hg.
    + injection Hred as <-. simpl. by rewrite Hg.
  - by injection Hred as <-.
  - injection Hred as <-. simpl. by destruct questions.
Qed.

Lemma current_defined_reachable s :
  reachable nonempty_questions s → current_defined s.
Proof.
  induction 1 as [items HP|s action r _ IH Hadm Hred].
  - unfold current_defined, initState. simpl.
    by destruct (makeQuestions numQuestions items).
  - by eapply current_defined_step.
Qed.

Lemma step_answeredOf s action r :
  starts_session action = false →
  reducer s action = Normal r →
  answeredOf (gameState s) `suffix_of` answeredOf (gameState (state r)).
Proof.
  intros Hact Hred. destruct action as [a| | |questions]; simpl in *.
  - destruct (gameState s) as [answered [q|] [given|] next|answered] eqn:Hg;
      simpl in Hred; try discriminate; injection Hred as <-; simpl;
      rewrite ?Hg; done.
  - destruct (gameState s) as [answered current [given|] next|answered] eqn:Hg.
    + destruct next as [|head tail]; simpl in Hred; injection Hred as <-;
        simpl; apply suffix_cons_r; done.
    + injection Hred as <-. simpl. by rewrite Hg.
    + injection Hred as <-. simpl. by rewrite Hg.
  - by injection Hred as <-.
  - discriminate.
Qed.

Lemma step_queueOf s action r :
  starts_session action = false →
  reducer s action = Normal r →
  queueOf (gameState (state r)) `suffix_of` queueOf (gameState s).
Proof.
  intros Hact Hred. destruct action as [a| | |questions]; simpl in *.
  - destruct (gameState s) as [answered [q|] [given|] next|answered] eqn:Hg;
      simpl in Hred; try discriminate; injection Hred as <-; simpl;
      rewrite ?Hg; done.
  - destruct (gameState s) as [answered current [given|] next|answered] eqn:Hg.
    + destruct next as [|head tail]; simpl in Hred; injection Hred as <-;
        simpl; [done |]. by apply suffix_cons_r.
    + injection Hred as <-. simpl. by rewrite Hg.
    + injection Hred as <-. simpl. by rewrite Hg.
  - by injection Hred as <-.
  - discriminate.
Qed.

(** *** When the reducer raises *)

(** X1: the reducer raises exactly on an [answer] action for a game in
    progress that has no answer yet and whose current question is
    [undefined]; every other pair of a state and an action returns. *)
Theorem reducer_raises_iff s action :
  (∃ e, reducer s action = Throw e) ↔
  (∃ a answered next,
      action = tag_answer a
      ∧ gameState s = in_progress answered None None next).
Proof.
  split.
  - intros [e He]. by eapply raises_only_undefined.
  - intros (a & answered & next & -> & Hg). exists TypeError.
    simpl. by rewrite Hg.
Qed.

(** X8: when the list [initState] generates and the list every [new_game]
    action carries are non-empty, no state reached by reducer transitions
    makes the reducer raise, whatever the action. *)
Theorem reachable_never_raises s action :
  reachable nonempty_questions s → ∃ r, reducer s action = Normal r.
Proof.
  intros Hreach. apply current_defined_reachable in Hreach.
  destruct (reducer s action) as [r|e] eqn:Hr; [by exists r |].
  apply raises_only_undefined in Hr as (a & answered & next & _ & Hg).
  unfold current_defined in Hreach. rewrite Hg in Hreach.
  by destruct Hreach.
Qed.

(** X11: when the generator returns no question, [initState] builds a game
    in progress whose current question is [undefined], and every [answer]
    action on that state raises a [TypeError]. *)
Theorem initState_empty_generator (items : list QuestionItem) a :
  makeQuestions numQuestions items = [] →
  initState items =
    {| questionItems := items; gameState := in_progress [] None None [] |}
  ∧ reducer (initState items) (answerAction a) = Throw TypeError.
Proof. intros Hq. unfold initState. by rewrite Hq. Qed.

(** *** Effects *)

(** X9: a transition returns at most one effect, and only for
    [start_game] and [answer]; every effect it returns resolves to exactly
    one action. *)
Theorem effects_at_most_one s action r :
  reducer s action = Normal r →
  length (effects r) ≤ 1
  ∧ (∀ e, e ∈ effects r → length (dispatched e) = 1)
  ∧ (effects r ≠ [] → action = tag_start_game ∨ ∃ a, action = tag_answer a).
Proof.
  destruct action as [a| | |questions]; simpl.
  - destruct (gameState s) as [answered [q|] [given|] next|answered];
      simpl; try discriminate; intros [= <-]; simpl;
      (split; [lia |]); (split; [| by eauto]); intros e He;
      try by apply elem_of_nil in He.
    apply list_elem_of_singleton in He as ->.
    by rewrite nextQuestion_dispatched.
  - destruct (gameState s) as [answered current [given|] next|answered];
      [destruct (length next <=? 0) | |]; intros [= <-]; simpl;
      (split; [lia |]); (split; [| done]); intros e He;
      by apply elem_of_nil in He.
  - intros [= <-]. simpl. split; [lia |]. split; [| by eauto].
    intros e He. by apply list_elem_of_singleton in He as ->.
  - intros [= <-]. simpl. split; [lia |]. split; [| done].
    intros e He. by apply elem_of_nil in He.
Qed.

(** X10: the effect of an accepted answer waits 1500 exactly once, as its
    last call before resolving; the animation, fired only for the correct
    option, comes before the wait. *)
Theorem answer_effect_trace s answered q next a r e :
  gameState s = in_progress answered (Some q) None next →
  reducer s (answerAction a) = Normal r →
  e ∈ effects r →
  trace e =
    (if bool_decide (a = correctOption q) then [EvConfetti] else [])
      ++ [EvDelay 1500%Z].
Proof.
  intros Hg Hr He. rewrite (step_answer s answered q next a Hg) in Hr.
  injection Hr as <-. simpl in He. apply list_elem_of_singleton in He as ->.
  apply nextQuestion_trace.
Qed.

(** X4: an accepted answer followed by an action its effect resolves to
    completes the question: the pool is kept, the pair of the question
    and the submitted answer goes in front of the answered list, the head
    of the queue becomes the unanswered current question or, when the
    queue is empty, the game ends; no further effect is returned. *)
Theorem answer_then_effect_advances s answered q next a r e action :
  gameState s = in_progress answered (Some q) None next →
  reducer s (tag_answer a) = Normal r →
  e ∈ effects r →
  action ∈ dispatched e →
  reducer (state r) action =
    Normal {| state :=
                {| questionItems := questionItems s;
                   gameState :=
                     match next with
                     | head :: tail =>
                         in_progress
                           ({| question := Some q; answer := a |} :: answered)
                           (Some head) None tail
                     | [] =>
                         ended
                           ({| question := Some q; answer := a |} :: answered)
                     end |};
              effects := [] |}.
Proof.
  intros Hg Hr He Ha. change (tag_answer a) with (answerAction a) in Hr.
  rewrite (step_answer s answered q next a Hg) in Hr.
  injection Hr as <-. simpl in He. apply list_elem_of_singleton in He as ->.
  rewrite nextQuestion_dispatched in Ha.
  apply list_elem_of_singleton in Ha as ->.
  erewrite step_next_question; [| reflexivity]. by destruct next.
Qed.

(** X5: a [start_game] action leaves the state as it is and returns one
    effect, a single call to the generator; whichever list the generator
    returns, the effect resolves to one action, and that action applied to
    the state replaces the game, whatever it was, by a fresh one in
    progress built from that list (first question current, or [undefined]
    for an empty list; the rest queued), keeping the pool. *)
Theorem restart_fresh_game s :
  ∃ (e : Effect) (k : list Question → Promise (list Action)),
    reducer s tag_start_game = Normal {| state := s; effects := [e] |}
    ∧ e () = generate 6 (questionItems s) k
    ∧ ∀ generated : list Question,
        ∃ action,
          k generated = resolve [action]
          ∧ reducer s action =
              Normal {| state :=
                          {| questionItems := questionItems s;
                             gameState :=
                               in_progress [] (head generated) None
                                 (tail generated) |};
                        effects := [] |}.
Proof.
  exists (newGame (questionItems s)),
    (fun generated => resolve [newGameAction generated]).
  split; [reflexivity |]. split; [reflexivity |].
  intros generated. by exists (tag_new_game generated).
Qed.

(** *** Repeated actions *)

(** X12: once an [answer] action has returned, any further [answer]
    action, with the same or another answer, returns the state unchanged
    and no effect. *)
Theorem answer_then_answer_noop s a b r :
  reducer s (answerAction a) = Normal r →
  reducer (state r) (answerAction b) =
    Normal {| state := state r; effects := [] |}.
Proof.
  simpl.
  destruct (gameState s) as [answered [q|] [given|] next|answered] eqn:Hg;
    simpl; try discriminate; intros [= <-]; simpl; by rewrite ?Hg.
Qed.

(** X13: [next_question] never raises, and a second [next_question] right
    after the first returns the state unchanged and no effect: a repeated
    timer cannot skip a question. *)
Theorem next_question_twice s :
  ∃ r, reducer s (nextQuestionAction ()) = Normal r
       ∧ reducer (state r) (nextQuestionAction ()) =
           Normal {| state := state r; effects := [] |}.
Proof.
  simpl.
  destruct (gameState s) as [answered current [given|] next|answered] eqn:Hg.
  - destruct next as [|head tail]; simpl; eexists; split; reflexivity.
  - eexists. split; [reflexivity |]. simpl. by rewrite Hg.
  - eexists. split; [reflexivity |]. simpl. by rewrite Hg.
Qed.

(** *** Sequences of actions *)

(** X2: no sequence of actions changes the pool of question items. *)
Theorem dispatchAll_questionItems (actions : list Action) : ∀ s s',
  dispatchAll s actions = Normal s' → questionItems s' = questionItems s.
Proof.
  induction actions as [|action rest IH]; intros s s'; simpl.
  - by intros [= <-].
  - destruct (reducer s action) as [r|e] eqn:Hr; simpl; [| discriminate].
    intros Hrest. rewrite (IH _ _ Hrest). by apply (step_questionItems s action).
Qed.

(** X3: from any state, [new_game] with a non-empty list of questions
    followed by one round (an answer, then [next_question]) per question
    ends the game, and the answered list pairs each question with the
    answer given to it, the last completed first. *)
Theorem play_to_end s (questions : list Question) (answers : list Answer) :
  questions ≠ [] →
  length answers = length questions →
  dispatchAll s (newGameAction questions :: rounds answers) =
    Normal (with_gameState s
              (ended (reverse (answeredPairs questions answers)))).
Proof.
  intros Hne Hlen. destruct questions as [|q next]; [done |].
  destruct answers as [|a answers]; [discriminate |]. injection Hlen as Hlen.
  rewrite (dispatchAll_cons _ _ _ _ (reducer_new_game s (q :: next))).
  erewrite dispatchAll_rounds; [| reflexivity | exact Hlen].
  by rewrite app_nil_r.
Qed.

(** X15: when the generator returns a non-empty list, one round per
    generated question from [initState] ends the game with every generated
    question answered, the last completed first, and the pool as given. *)
Theorem initState_play_to_end (items : list QuestionItem)
    (answers : list Answer) :
  makeQuestions numQuestions items ≠ [] →
  length answers = length (makeQuestions numQuestions items) →
  dispatchAll (initState items) (rounds answers) =
    Normal {| questionItems := items;
              gameState :=
                ended (reverse (answeredPairs
                                  (makeQuestions numQuestions items) answers)) |}.
Proof.
  intros Hne Hlen. unfold initState.
  destruct (makeQuestions numQuestions items) as [|q next]; [done |].
  destruct answers as [|a answers]; [discriminate |]. injection Hlen as Hlen.
  rewrite destructure_cons.
  erewrite dispatchAll_rounds; [| reflexivity | exact Hlen].
  by rewrite app_nil_r.
Qed.

(** *** Within a session *)

(** X6: within a session the answered list only grows at its front: the
    list the session began with is a suffix of the list of every later
    state. *)
Theorem session_answered_suffix s0 s :
  session s0 s →
  answeredOf (gameState s0) `suffix_of` answeredOf (gameState s).
Proof.
  induction 1 as [|s action r _ IH Hact Hred]; [done |].
  etrans; [exact IH |]. by eapply step_answeredOf.
Qed.

(** X7: within a session the queue only shrinks from its front: the queue
    of every later state is a suffix of the queue the session began
    with. *)
Theorem session_queue_suffix s0 s :
  session s0 s →
  queueOf (gameState s) `suffix_of` queueOf (gameState s0).
Proof.
  induction 1 as [|s action r _ IH Hact Hred]; [done |].
  etrans; [| exact IH]. by eapply step_queueOf.
Qed.

(** X14: an ended game stays as it is until a [new_game] action: no
    sequence of [answer], [next_question] and [start_game] transitions
    changes the state. *)
Theorem ended_session_fixed s0 s answered :
  gameState s0 = ended answered → session s0 s → s = s0.
Proof.
  intros Hg. induction 1 as [|s action r _ IH Hact Hred]; [done |].
  subst s. destruct action as [a| | |questions]; simpl in *;
    rewrite ?Hg in Hred; try discriminate; by injection Hred as <-.
Qed.

End Sessions.

(** ** The further properties on the concrete question module *)

Section SessionInstances.
Import Demo.
Local Existing Instance questions.

Lemma started_reachable : reachable nonempty_questions started.
Proof. apply (reachable_init nonempty_questions pool). discriminate. Defined.

Lemma started_answer :
  reducer started (answerAction two) =
    Normal {| state := firstAnswered; effects := [nextQuestion true] |}.
Proof. reflexivity. Defined.

Lemma started_session : session started second.
Proof.
  apply (session_step started firstAnswered (nextQuestionAction ())
           (noEffects second)); [| reflexivity | reflexivity].
  apply (session_step started started (answerAction two)
           {| state := firstAnswered; effects := [nextQuestion true] |});
    [apply session_here | reflexivity | reflexivity].
Defined.

(** X8, witness. *)
Lemma reachable_never_raises_witness :
  reachable nonempty_questions started
  ∧ ∃ r, reducer started (answerAction two) = Normal r.
Proof.
  split; [exact started_reachable |].
  apply (reachable_never_raises started (answerAction two)).
  exact started_reachable.
Defined.

(** X11, witness: an empty pool. *)
Lemma initState_empty_generator_witness :
  makeQuestions numQuestions noItems = []
  ∧ initState noItems =
      {| questionItems := noItems; gameState := in_progress [] None None [] |}
  ∧ reducer (initState noItems) (answerAction two) = Throw TypeError.
Proof.
  split; [reflexivity |].
  apply (initState_empty_generator noItems two). reflexivity.
Defined.

(** X9, witness. *)
Lemma effects_at_most_one_witness :
  reducer started (answerAction two) =
    Normal {| state := firstAnswered; effects := [nextQuestion true] |}
  ∧ length [nextQuestion true] ≤ 1
  ∧ (∀ e, e ∈ [nextQuestion true] → length (dispatched e) = 1).
Proof.
  split; [exact started_answer |].
  destruct (effects_at_most_one started (answerAction two) _ started_answer)
    as (Hlen & Hone & _).
  split; [exact Hlen | exact Hone].
Defined.

(** X10, witness: the right answer fires the animation, then waits. *)
Lemma answer_effect_trace_witness :
  trace (nextQuestion true) = [EvConfetti; EvDelay 1500%Z].
Proof.
  apply (answer_effect_trace started [] (card 1 2)
           [card 2 0; card 3 3; card 4 1; card 5 0; card 6 2] two
           {| state := firstAnswered; effects := [nextQuestion true] |}
           (nextQuestion true));
    [reflexivity | exact started_answer | apply list_elem_of_here].
Defined.

(** X4, witness. *)
Lemma answer_then_effect_advances_witness :
  reducer firstAnswered tag_next_question =
    Normal {| state := second; effects := [] |}.
Proof.
  apply (answer_then_effect_advances started [] (card 1 2)
           [card 2 0; card 3 3; card 4 1; card 5 0; card 6 2] two
           {| state := firstAnswered; effects := [nextQuestion true] |}
           (nextQuestion true) (nextQuestionAction ()));
    [reflexivity | exact started_answer | apply list_elem_of_here
    | apply list_elem_of_here].
Defined.

(** X12, witness. *)
Lemma answer_then_answer_noop_witness :
  reducer started (answerAction two) =
    Normal {| state := firstAnswered; effects := [nextQuestion true] |}
  ∧ reducer firstAnswered (answerAction zero) =
      Normal {| state := firstAnswered; effects := [] |}.
Proof.
  split; [exact started_answer |].
  apply (answer_then_answer_noop started two zero
           {| state := firstAnswered; effects := [nextQuestion true] |}).
  exact started_answer.
Defined.

(** X2, witness. *)
Lemma dispatchAll_questionItems_witness :
  dispatchAll started
    [answerAction two; nextQuestionAction (); startGameAction ()] = Normal second
  ∧ questionItems second = questionItems started.
Proof.
  split; [reflexivity |].
  apply (dispatchAll_questionItems
           [answerAction two; nextQuestionAction (); startGameAction ()]
           started second).
  reflexivity.
Defined.

(** X3, witness: a game of two questions played from an ended state. *)
Lemma play_to_end_witness :
  [card 7 1; card 8 3] ≠ []
  ∧ length [zero; two] = length [card 7 1; card 8 3]
  ∧ dispatchAll finished
      (newGameAction [card 7 1; card 8 3] :: rounds [zero; two]) =
      Normal (with_gameState finished
                (ended [{| question := Some (card 8 3); answer := two |};
                        {| question := Some (card 7 1); answer := zero |}])).
Proof.
  split; [discriminate |]. split; [reflexivity |].
  apply (play_to_end finished [card 7 1; card 8 3] [zero; two]);
    [discriminate | reflexivity].
Defined.

(** X15, witness: the six questions of the pool. *)
Lemma initState_play_to_end_witness :
  makeQuestions numQuestions pool ≠ []
  ∧ length [two; zero; zero; two; zero; two]
      = length (makeQuestions numQuestions pool)
  ∧ dispatchAll (initState pool) (rounds [two; zero; zero; two; zero; two]) =
      Normal {| questionItems := pool;
                gameState :=
                  ended (reverse
                           (answeredPairs (makeQuestions numQuestions pool)
                              [two; zero; zero; two; zero; two])) |}.
Proof.
  split; [discriminate |]. split; [reflexivity |].
  apply (initState_play_to_end pool [two; zero; zero; two; zero; two]);
    [discriminate | reflexivity].
Defined.

(** X6, witness. *)
Lemma session_answered_suffix_witness :
  session started second
  ∧ answeredOf (gameState started) `suffix_of` answeredOf (gameState second).
Proof.
  split; [exact started_session |].
  apply (session_answered_suffix started second). exact started_session.
Defined.

(** X7, witness. *)
Lemma session_queue_suffix_witness :
  session started second
  ∧ queueOf (gameState second) `suffix_of` queueOf (gameState started).
Proof.
  split; [exact started_session |].
  apply (session_queue_suffix started second). exact started_session.
Defined.

Lemma finished_session :
  session finished
    (state {| state := finished; effects := [newGame pool] |}).
Proof.
  apply (session_step finished finished (startGameAction ())
           {| state := finished; effects := [newGame pool] |});
    [apply session_here | reflexivity | reflexivity].
Defined.

(** X14, witness: [start_game] on an ended game. *)
Lemma ended_session_fixed_witness :
  gameState finished =
    ended [{| question := Some (card 1 2); answer := two |}]
  ∧ state {| state := finished; effects := [newGame pool] |} = finished.
Proof.
  split; [reflexivity |].
  apply (ended_session_fixed finished _
           [{| question := Some (card 1 2); answer := two |}]);
    [reflexivity | exact finished_session].
Defined.

End SessionInstances.
